(** * Shallow embedding of package [vm] of roachprod (vm/vm.go)

    The VM entity and its [Locality], the provider registry, the dispatch
    engine ([ForProvider], [ProvidersSequential], [ProvidersParallel],
    [FanOut]) and the identity consensus resolver [FindActiveAccount].

    Conventions of the embedding:
    - Go strings are Rocq [string]s (byte strings);
    - Go maps are association lists; the order of the list stands for the
      (unspecified) iteration order of the Go map;
    - a Go function returning [error] returns [option error] ([None] is nil);
    - the global state ([cachedActiveAccount]) and the side effects of
      callbacks are threaded through a small state monad [M];
    - [log.Fatalf] (process termination) is [None] of an [option]. *)

From Stdlib Require Import String Ascii List Bool Arith NArith ZArith Lia Permutation.
Import ListNotations.
Local Open Scope string_scope.

(** ** Errors (github.com/pkg/errors) *)

(** [errors.New]/[errors.Errorf] build a fundamental error carrying its
    formatted message; [errors.Wrapf err msg] keeps [err] as its cause. *)
Inductive error : Type :=
| Err (msg : string)
| Wrapped (cause : error) (msg : string).

Definition errors_New (msg : string) : error := Err msg.
Definition errors_Wrapf (err : error) (msg : string) : error := Wrapped err msg.

(** [err.Error()]: a wrapped error prints as ["msg: " ++ cause]. *)
Fixpoint Error (e : error) : string :=
  match e with
  | Err msg => msg
  | Wrapped c msg => msg ++ ": " ++ Error c
  end.

(** [errors.Cause]: unwrap as long as the error has a cause. *)
Fixpoint Cause (e : error) : error :=
  match e with
  | Err _ => e
  | Wrapped c _ => Cause c
  end.

(** One step of unwrapping (the direct cause). *)
Definition Unwrap (e : error) : option error :=
  match e with
  | Err _ => None
  | Wrapped c _ => Some c
  end.

(** ** A small state monad *)

Definition M (S A : Type) : Type := S -> A * S.

Definition ret {S A} (a : A) : M S A := fun s => (a, s).

Definition bind {S A B} (c : M S A) (f : A -> M S B) : M S B :=
  fun s => let '(a, s') := c s in f a s'.

Notation "x <- c1 ;; c2" := (bind c1 (fun x => c2))
  (at level 61, c1 at next level, right associativity).

(** ** Association lists standing for Go maps *)

Fixpoint lookup {A} (k : string) (m : list (string * A)) : option A :=
  match m with
  | [] => None
  | (k', v) :: m' => if String.eqb k k' then Some v else lookup k m'
  end.

(** [m[k] = v] *)
Fixpoint map_set {A} (k : string) (v : A) (m : list (string * A))
  : list (string * A) :=
  match m with
  | [] => [(k, v)]
  | (k', v') :: m' =>
      if String.eqb k k' then (k, v) :: m' else (k', v') :: map_set k v m'
  end.

(** ** Providers and the registry *)

Module Provider.
(** The [Provider] interface; only the methods the dispatch engine and the
    consensus resolver call are kept: [Name()] and [FindActiveAccount()]
    (its result as the pair [(string, error)]). *)
Record t : Type := mk {
  Name : string;
  FindActiveAccount : string * option error
}.
End Provider.

(** [var Providers = map[string]Provider{}] *)
Definition registry : Type := list (string * Provider.t).

(** [AllProviderNames]: the keys of the map, in iteration order. *)
Definition AllProviderNames (Providers : registry) : list string :=
  map fst Providers.

(** ** Dispatch engine *)

Section Dispatch.
Context {S : Type}.

(** [ForProvider(named, action)] *)
Definition ForProvider (Providers : registry) (named : string)
    (action : Provider.t -> M S (option error)) : M S (option error) :=
  match lookup named Providers with
  | None => ret (Some (Err ("unknown vm provider: " ++ named)))
  | Some p =>
      r <- action p ;;
      match r with
      | Some err => ret (Some (errors_Wrapf err ("in provider: " ++ named)))
      | None => ret None
      end
  end.

(** [ProvidersSequential(named, action)] *)
Fixpoint ProvidersSequential (Providers : registry) (named : list string)
    (action : Provider.t -> M S (option error)) : M S (option error) :=
  match named with
  | [] => ret None
  | name :: rest =>
      r <- ForProvider Providers name action ;;
      match r with
      | Some err => ret (Some err)
      | None => ProvidersSequential Providers rest action
      end
  end.

End Dispatch.

(** ** Identity consensus resolver *)

(** Process state: the memoized [cachedActiveAccount] and, as an
    instrument, the names of the providers whose [FindActiveAccount] was
    called, in call order. *)
Record State : Type := mkState {
  cachedActiveAccount : string;
  providerCalls : list string
}.

(** The closure passed to [ProvidersSequential] in [FindActiveAccount]:
    [providerAccounts[p.Name()], err = p.FindActiveAccount(); return].
    Its state is the process state and the local map [providerAccounts]. *)
Definition findAction (p : Provider.t)
    : M (State * list (string * string)) (option error) :=
  fun '(st, providerAccounts) =>
    let '(acct, err) := Provider.FindActiveAccount p in
    (err, (mkState (cachedActiveAccount st)
                   (providerCalls st ++ [Provider.Name p])%list,
           map_set (Provider.Name p) acct providerAccounts)).

(** [counts[acct]++] *)
Fixpoint map_incr (k : string) (m : list (string * nat)) : list (string * nat) :=
  match m with
  | [] => [(k, 1)]
  | (k', n) :: m' =>
      if String.eqb k k' then (k', S n) :: m' else (k', n) :: map_incr k m'
  end.

(** The counting loop over [providerAccounts], returning [counts] and
    [lastAccount]. *)
Fixpoint count_loop (accts : list (string * string))
    (counts : list (string * nat)) (lastAccount : string)
    : list (string * nat) * string :=
  match accts with
  | [] => (counts, lastAccount)
  | (_, acct) :: rest =>
      if (0 <? String.length acct)%nat
      then count_loop rest (map_incr acct counts) acct
      else count_loop rest counts lastAccount
  end.

(** [fmt] prints a [map[string]string] with [%s] as [map[k1:v1 k2:v2]],
    keys in sorted order. *)
Fixpoint insert_by_key (kv : string * string) (l : list (string * string))
  : list (string * string) :=
  match l with
  | [] => [kv]
  | kv' :: l' =>
      if String.leb (fst kv) (fst kv') then kv :: l
      else kv' :: insert_by_key kv l'
  end.

Definition sort_by_key (l : list (string * string)) : list (string * string) :=
  fold_right insert_by_key [] l.

Definition fmt_map (m : list (string * string)) : string :=
  "map[" ++ String.concat " " (map (fun '(k, v) => k ++ ":" ++ v) (sort_by_key m))
  ++ "]".

(** Lines 163-192: the resolution performed on a cache miss. *)
Definition resolveActiveAccount (Providers : registry)
    : M State (string * option error) :=
  fun st =>
    let '(err, (st', providerAccounts)) :=
      ProvidersSequential Providers (AllProviderNames Providers) findAction
        (st, []) in
    match err with
    | Some e => (("", Some e), st')
    | None =>
        let '(counts, lastAccount) := count_loop providerAccounts [] "" in
        match List.length counts with
        | O => (("", Some (errors_New "no Providers returned any active accounts")), st')
        | S O => ((lastAccount, None), mkState lastAccount (providerCalls st'))
        | _ => (("", Some (Err ("multiple active Provider accounts detected: "
                                 ++ fmt_map providerAccounts))), st')
        end
    end.

(** [FindActiveAccount()] *)
Definition FindActiveAccount (Providers : registry)
    : M State (string * option error) :=
  fun st =>
    if (0 <? String.length (cachedActiveAccount st))%nat
    then ((cachedActiveAccount st, None), st)
    else resolveActiveAccount Providers st.

(** ** The VM entity *)

Module VM.
(** [type VM struct]; times and durations are counted in nat. *)
Record t : Type := mk {
  Name : string;
  CreatedAt : nat;
  Errors : list error;
  Lifetime : nat;
  DNS : string;
  Provider : string;
  PrivateIP : string;
  PublicIP : string;
  Zone : string
}.

(** [type List []VM] *)
Definition List : Type := list t.
End VM.

(** ** Regular expressions (Go [regexp], leftmost-first semantics)

    A backtracking matcher for the fragment of RE2 syntax used by
    [regionRE]: single-character classes, a greedy star and a greedy
    optional over a class, concatenation, one capture group and [$].
    Characters are bytes; the classes involved ([.], [[^-]], [[a-z]], [-])
    are decided on ASCII bytes, which no multi-byte UTF-8 rune contains. *)
Inductive regex : Type :=
| RClass (c : ascii -> bool)
| RStar (c : ascii -> bool)
| ROpt (c : ascii -> bool)
| RCat (r1 r2 : regex)
| RGroup (r : regex)
| REnd.

(** The answer of a match: the remaining input and the capture. *)
Definition answer : Type := option (list ascii * option (list ascii)).

(** Greedy [c*]: try the longest run first, then give back one byte at a
    time. *)
Fixpoint star (c : ascii -> bool) (s : list ascii)
    (k : list ascii -> answer) : answer :=
  match s with
  | x :: s' =>
      if c x then
        match star c s' k with
        | Some r => Some r
        | None => k s
        end
      else k s
  | [] => k s
  end.

Fixpoint matcher (r : regex) (s : list ascii) (cap : option (list ascii))
    (k : list ascii -> option (list ascii) -> answer) {struct r} : answer :=
  match r with
  | RClass c =>
      match s with
      | x :: s' => if c x then k s' cap else None
      | [] => None
      end
  | RStar c => star c s (fun s' => k s' cap)
  | ROpt c =>
      match s with
      | x :: s' =>
          if c x then
            match k s' cap with
            | Some a => Some a
            | None => k s cap
            end
          else k s cap
      | [] => k s cap
      end
  | RCat r1 r2 => matcher r1 s cap (fun s' cap' => matcher r2 s' cap' k)
  | RGroup r1 =>
      matcher r1 s cap
        (fun s' _ => k s' (Some (firstn (List.length s - List.length s') s)))
  | REnd =>
      match s with
      | [] => k s cap
      | _ :: _ => None
      end
  end.

(** [re.FindStringSubmatch(s)]: the leftmost match, as the list
    [[whole; group1]]; [None] is the nil slice. *)
Fixpoint FindStringSubmatch (r : regex) (s : list ascii)
    : option (list (list ascii)) :=
  match matcher r s None (fun s' cap => Some (s', cap)) with
  | Some (s', cap) =>
      Some [firstn (List.length s - List.length s') s;
            match cap with Some g => g | None => [] end]
  | None =>
      match s with
      | [] => None
      | _ :: s' => FindStringSubmatch r s'
      end
  end.

Definition newline : ascii := Ascii.ascii_of_nat 10.

(** [.] (no newline), [[^-]], [[a-z]] and [-]. *)
Definition cls_dot (x : ascii) : bool := negb (Ascii.eqb x newline).
Definition cls_not_hyphen (x : ascii) : bool := negb (Ascii.eqb x "-"%char).
Definition cls_lower (x : ascii) : bool :=
  (Ascii.nat_of_ascii "a" <=? Ascii.nat_of_ascii x)%nat
  && (Ascii.nat_of_ascii x <=? Ascii.nat_of_ascii "z")%nat.
Definition cls_hyphen (x : ascii) : bool := Ascii.eqb x "-"%char.

(** [regionRE = regexp.MustCompile(`(.*[^-])-?[a-z]$`)] *)
Definition regionRE : regex :=
  RCat (RGroup (RCat (RStar cls_dot) (RClass cls_not_hyphen)))
       (RCat (ROpt cls_hyphen) (RCat (RClass cls_lower) REnd)).

Section Locality.
(** [config.Local], the zone of the local host (package config). *)
Variable Local : string.

(** [vm.IsLocal()] *)
Definition IsLocal (vm : VM.t) : bool := String.eqb (VM.Zone vm) Local.

(** [vm.Locality()]; [None] is the [log.Fatalf] branch. *)
Definition Locality (vm : VM.t) : option string :=
  let region :=
    if IsLocal vm then Some (VM.Zone vm)
    else
      let match_ :=
        match FindStringSubmatch regionRE (list_ascii_of_string (VM.Zone vm)) with
        | Some l => l
        | None => []
        end in
      if (List.length match_ =? 2)%nat
      then Some (string_of_list_ascii (nth 1 match_ []))
      else None in
  match region with
  | Some r => Some ("region=" ++ r ++ ",zone=" ++ VM.Zone vm)
  | None => None
  end.
End Locality.

(** ** Parallel dispatch: [errgroup] and the goroutines of the range loops

    In [FanOut] and [ProvidersParallel] the closure given to [g.Go] reads
    the range variables ([name], [vms]) of the enclosing [for ... range]
    loop. Those are single variables of the loop, reassigned at every
    iteration (the loop-variable semantics of the Go releases this package
    was written for: no per-iteration copy, and no copy in the source), so
    a goroutine sees the values they hold when it runs. A [schedule] lists
    the goroutines in completion order as pairs [(i, j)]: goroutine [i],
    spawned at iteration [i], reads the range variables as assigned by
    iteration [j] (after the loop they keep the values of the last
    iteration). Each goroutine runs as one atomic step. *)
Definition schedule : Type := list (nat * nat).

Definition valid_schedule (n : nat) (sch : schedule) : Prop :=
  Permutation (map fst sch) (seq 0 n)
  /\ Forall (fun '(i, j) => i <= j < n)%nat sch.

(** The schedule in which every goroutine sees the values of its own
    iteration. *)
Definition own_iteration (n : nat) : schedule := map (fun i => (i, i)) (seq 0 n).

(** [g.Wait()]: run the goroutines in completion order and return the
    first non-nil error. *)
Fixpoint errgroup_Wait {S} (tasks : list (M S (option error)))
    (first : option error) : M S (option error) :=
  match tasks with
  | [] => ret first
  | t :: ts =>
      r <- t ;;
      errgroup_Wait ts (match first with Some e => Some e | None => r end)
  end.

(** [for _, vm := range list { m[vm.Provider] = append(m[vm.Provider], vm) }] *)
Fixpoint collate (list_ : VM.List) (m : list (string * VM.List))
    : list (string * VM.List) :=
  match list_ with
  | [] => m
  | vm :: rest =>
      let old := match lookup (VM.Provider vm) m with Some l => l | None => [] end in
      collate rest (map_set (VM.Provider vm) (old ++ [vm])%list m)
  end.

Section Parallel.
Context {S : Type}.

(** The body of the goroutine of [FanOut], for range values [(name, vms)]. *)
Definition fanOutTask (Providers : registry)
    (action : Provider.t -> VM.List -> M S (option error))
    (entry : string * VM.List) : M S (option error) :=
  let '(name, vms) := entry in
  match lookup name Providers with
  | None => ret (Some (Err ("unknown provider name: " ++ name)))
  | Some p => action p vms
  end.

(** [FanOut(list, action)]; [iter] is the iteration order of the map [m]
    (a permutation of its positions) and [sch] the goroutine schedule. *)
Definition FanOut (Providers : registry) (list_ : VM.List)
    (iter : list nat) (sch : schedule)
    (action : Provider.t -> VM.List -> M S (option error)) : M S (option error) :=
  let m := collate list_ [] in
  let entries := map (fun i => nth i m ("", [])) iter in
  errgroup_Wait
    (map (fun '(_, j) => fanOutTask Providers action (nth j entries ("", []))) sch)
    None.

(** [ProvidersParallel(named, action)] with goroutine schedule [sch]. *)
Definition ProvidersParallel (Providers : registry) (named : list string)
    (sch : schedule) (action : Provider.t -> M S (option error))
    : M S (option error) :=
  errgroup_Wait
    (map (fun '(_, j) => ForProvider Providers (nth j named "") action) sch)
    None.

End Parallel.

(** Instrumented callbacks: the action [f] recording each invocation. *)
Definition logged {S} (action : Provider.t -> M S (option error))
    : Provider.t -> M (S * list Provider.t) (option error) :=
  fun p '(s, log) => let '(r, s') := action p s in (r, (s', (log ++ [p])%list)).

Definition logged2 (f : Provider.t -> VM.List -> option error)
    : Provider.t -> VM.List -> M (list (Provider.t * VM.List)) (option error) :=
  fun p vms log => (f p vms, (log ++ [(p, vms)])%list).

(** The per-provider mapping [providerAccounts] built from a registry. *)
Definition accounts_of (l : registry) : list (string * string) :=
  map (fun '(k, p) => (k, fst (Provider.FindActiveAccount p))) l.

(** A sequence of calls over the life of the process (each call may see
    providers answering differently). *)
Fixpoint FindActiveAccount_calls (regs : list registry)
    : M State (list (string * option error)) :=
  match regs with
  | [] => ret []
  | R :: rest =>
      r <- FindActiveAccount R ;;
      rs <- FindActiveAccount_calls rest ;;
      ret (r :: rs)
  end.

(** ** Operations on [List] (sort.Interface and projections) *)

(** [ret[i] = v] / [vl[i] = v] on an index known to be in range. *)
Fixpoint set_nth {A} (l : list A) (i : nat) (v : A) : list A :=
  match l, i with
  | [], _ => []
  | _ :: l', O => v :: l'
  | x :: l', S i' => x :: set_nth l' i' v
  end.

(** [func (vl List) Len() int] *)
Definition Len (vl : VM.List) : nat := List.length vl.

(** The index expression [vl[i]] with [i] a Go [int]: [None] is the
    index-out-of-range panic ([i < 0] or [i >= len(vl)]). *)
Definition index {A} (l : list A) (i : Z) : option A :=
  if (i <? 0)%Z then None else nth_error l (Z.to_nat i).

(** [vl[i], vl[j] = vl[j], vl[i]] at non-negative positions: both operands
    are read, then [vl[i]] and [vl[j]] are assigned in this order. *)
Definition swap_at (vl : VM.List) (i j : nat) : option VM.List :=
  match nth_error vl i, nth_error vl j with
  | Some vi, Some vj => Some (set_nth (set_nth vl i vj) j vi)
  | _, _ => None
  end.

(** [func (vl List) Swap(i, j int)]: [vl[i], vl[j] = vl[j], vl[i]] on the
    shared backing array; [None] is the index-out-of-range panic. *)
Definition Swap (vl : VM.List) (i j : Z) : option VM.List :=
  match index vl i, index vl j with
  | Some vi, Some vj => Some (set_nth (set_nth vl (Z.to_nat i) vj) (Z.to_nat j) vi)
  | _, _ => None
  end.

(** [func (vl List) Less(i, j int) bool]: [vl[i].Name < vl[j].Name], Go's
    bytewise string order; [None] is the index-out-of-range panic. *)
Definition Less (vl : VM.List) (i j : nat) : option bool :=
  match nth_error vl i, nth_error vl j with
  | Some vi, Some vj => Some (String.ltb (VM.Name vi) (VM.Name vj))
  | _, _ => None
  end.

(** The loop [for i, vm := range vl { ret[i] = f(vm) }]. *)
Fixpoint fill_loop (f : VM.t -> string) (vl : VM.List) (i : nat)
    (ret : list string) : list string :=
  match vl with
  | [] => ret
  | vm :: rest => fill_loop f rest (S i) (set_nth ret i (f vm))
  end.

(** [func (vl List) Names() []string]: [ret := make([]string, len(vl))]
    then the loop storing [vm.Name]. *)
Definition Names (vl : VM.List) : list string :=
  fill_loop VM.Name vl 0 (repeat "" (List.length vl)).

(** [func (vl List) Zones() []string] *)
Definition Zones (vl : VM.List) : list string :=
  fill_loop VM.Zone vl 0 (repeat "" (List.length vl)).

(** The transposition of [i] and [j]. *)
Definition transpose (i j k : nat) : nat :=
  if Nat.eqb k i then j else if Nat.eqb k j then i else k.

(** The VMs of a list whose [Provider] is [k], in list order. *)
Definition group_of (k : string) (l : VM.List) : VM.List :=
  filter (fun vm => String.eqb (VM.Provider vm) k) l.

(** ** Concrete inputs *)

Definition prov (n a : string) : Provider.t := Provider.mk n (a, None).
Definition st0 : State := mkState "" [].
Definition vm_in (name provider zone : string) : VM.t :=
  VM.mk name 0 [] 0 "" provider "" "" zone.

Definition fails_on_gcp (p : Provider.t) : M nat (option error) :=
  fun n => (if String.eqb (Provider.Name p) "gcp" then Some (Err "boom") else None, S n).

Definition R3 : registry :=
  [("aws", prov "aws" "acct1"); ("gcp", prov "gcp" "acct1"); ("azure", prov "azure" "")].

(** A zone holding a newline: ["ab\ncd"]. *)
Definition zone_nl : string := "ab" ++ String newline "cd".

(** A zone whose final letter follows a newline: ["a\nb"]. *)
Definition zone_anb : string := "a" ++ String newline "b".

Definition R_split : registry :=
  [("aws", prov "aws" "acct1"); ("gcp", prov "gcp" "acct2")].

Definition n1 : VM.t := vm_in "n1" "aws" "us-east1-b".

Definition n2 : VM.t := vm_in "n2" "gcp" "us-east1-b".

Definition n3 : VM.t := vm_in "n3" "aws" "us-east1-c".

Definition nb : VM.t := vm_in "nb" "bogus" "us-east1-b".

Definition paws : Provider.t := prov "aws" "acct1".

Definition pgcp : Provider.t := prov "gcp" "acct1".

Definition R_aws_gcp : registry := [("aws", paws); ("gcp", pgcp)].

Definition R_aws : registry := [("aws", paws)].

Definition succeed2 (_ : Provider.t) (_ : VM.List) : option error := None.

Definition pA : Provider.t := prov "A" "acct1".

Definition pB : Provider.t := prov "B" "acct1".

Definition pC : Provider.t := prov "C" "acct1".

Definition R_ABC : registry := [("A", pA); ("B", pB); ("C", pC)].

(** An action failing on provider B only. *)
Definition fails_on_B (p : Provider.t) : M unit (option error) :=
  fun u => (if String.eqb (Provider.Name p) "B" then Some (Err "boom") else None, u).

(** A provider named B whose [FindActiveAccount] fails. *)
Definition pBad : Provider.t := Provider.mk "B" (""%string, Some (Err "boom")).

Definition R_AbadC : registry := [("A", pA); ("B", pBad); ("C", pC)].

(** * Properties *)

(** ** ForProvider and ProvidersSequential *)

(** C6: [ForProvider] fails with ["unknown vm provider: <named>"] without
    invoking the action when [named] is not registered; otherwise it invokes
    the action on the registered provider, wraps an error of the action
    with ["in provider: <named>"] (the original error is the direct cause,
    and the root cause is kept), and returns nil when the action succeeds. *)
Theorem ForProvider_spec {S : Type} (Providers : registry) (named : string)
    (action : Provider.t -> M S (option error)) (s : S) (log : list Provider.t) :
  (lookup named Providers = None ->
   ForProvider Providers named (logged action) (s, log)
   = (Some (Err ("unknown vm provider: " ++ named)), (s, log)))
  /\ (forall p e s', lookup named Providers = Some p -> action p s = (Some e, s') ->
      ForProvider Providers named (logged action) (s, log)
      = (Some (errors_Wrapf e ("in provider: " ++ named)), (s', (log ++ [p])%list))
      /\ Unwrap (errors_Wrapf e ("in provider: " ++ named)) = Some e
      /\ Cause (errors_Wrapf e ("in provider: " ++ named)) = Cause e
      /\ Error (errors_Wrapf e ("in provider: " ++ named))
         = "in provider: " ++ named ++ ": " ++ Error e)
  /\ (forall p s', lookup named Providers = Some p -> action p s = (None, s') ->
      ForProvider Providers named (logged action) (s, log)
      = (None, (s', (log ++ [p])%list))).
Proof.
  unfold ForProvider, bind, ret, logged.
  split; [|split].
  - intros H. rewrite H. reflexivity.
  - intros p0 e s1 H Ha. rewrite H, Ha. repeat split.
  - intros p0 s1 H Ha. rewrite H, Ha. reflexivity.
Qed.

Lemma ForProvider_spec_witness :
  ForProvider [("aws", prov "aws" "a")] "gcp" (logged (fun _ => @ret nat _ None)) (0, [])
  = (Some (Err "unknown vm provider: gcp"), (0, [])).
Proof.
  apply (proj1 (ForProvider_spec [("aws", prov "aws" "a")] "gcp"
                  (fun _ => @ret nat _ None) 0 [])).
  reflexivity.
Defined.

(** C4: over names [[A; B; C]] where the action succeeds on [A] and fails
    with [e] on [B], [ProvidersSequential] invokes the action on [A], then
    on [B], never on [C], and returns [e] wrapped with ["in provider: B"]. *)
Theorem ProvidersSequential_fail_fast {S : Type} (Providers : registry)
    (A B C : string) (pA pB : Provider.t)
    (action : Provider.t -> M S (option error)) (s0 s1 s2 : S) (e : error) :
  lookup A Providers = Some pA ->
  lookup B Providers = Some pB ->
  action pA s0 = (None, s1) ->
  action pB s1 = (Some e, s2) ->
  ProvidersSequential Providers [A; B; C] (logged action) (s0, [])
  = (Some (errors_Wrapf e ("in provider: " ++ B)), (s2, [pA; pB])).
Proof.
  intros HA HB Ha Hb.
  cbn [ProvidersSequential]. unfold bind at 1, ForProvider at 1.
  rewrite HA. unfold bind at 1, logged at 1. rewrite Ha. cbn.
  unfold bind at 1, ForProvider at 1. rewrite HB.
  unfold bind, logged. rewrite Hb. reflexivity.
Qed.

Lemma ProvidersSequential_fail_fast_witness :
  ProvidersSequential R3 ["aws"; "gcp"; "azure"] (logged fails_on_gcp) (0, [])
  = (Some (errors_Wrapf (Err "boom") "in provider: gcp"),
     (2, [prov "aws" "acct1"; prov "gcp" "acct1"])).
Proof.
  apply (ProvidersSequential_fail_fast R3 "aws" "gcp" "azure"
           (prov "aws" "acct1") (prov "gcp" "acct1") fails_on_gcp 0 1 2 (Err "boom"));
  reflexivity.
Defined.

(** ** Locality *)

(** C8: [Locality()] of a VM in zone ["us-east1-b"] is
    ["region=us-east1,zone=us-east1-b"], and of a VM in the local zone is
    ["region=Z,zone=Z"] with [Z] the local zone; neither reaches
    [log.Fatalf]. *)
Theorem Locality_examples (Local : string) (vm : VM.t) :
  Local <> "us-east1-b" ->
  (VM.Zone vm = "us-east1-b" ->
   Locality Local vm = Some "region=us-east1,zone=us-east1-b")
  /\ (VM.Zone vm = Local ->
      Locality Local vm = Some ("region=" ++ Local ++ ",zone=" ++ Local)).
Proof.
  intros Hl. split; intros Hz; unfold Locality, IsLocal; rewrite Hz.
  - destruct (String.eqb_spec "us-east1-b" Local) as [E | _].
    + exfalso. apply Hl. symmetry. exact E.
    + vm_compute. reflexivity.
  - rewrite String.eqb_refl. reflexivity.
Qed.

Lemma Locality_examples_witness :
  Locality "local" (vm_in "n1" "gce" "us-east1-b") = Some "region=us-east1,zone=us-east1-b".
Proof.
  apply (proj1 (Locality_examples "local" (vm_in "n1" "gce" "us-east1-b") ltac:(discriminate)));
  reflexivity.
Defined.

Section RegionRE.
Local Open Scope list_scope.

Lemma FindStringSubmatch_unfold (r : regex) (s : list ascii) :
  FindStringSubmatch r s
  = match matcher r s None (fun s' cap => Some (s', cap)) with
    | Some (s', cap) =>
        Some [firstn (List.length s - List.length s') s;
              match cap with Some g => g | None => [] end]
    | None =>
        match s with
        | [] => None
        | _ :: s' => FindStringSubmatch r s'
        end
    end.
Proof. destruct s; reflexivity. Qed.

(** Greedy star: a success on a suffix is kept when the star starts further
    left over bytes of its class. *)
Lemma star_app (c : ascii -> bool) (pre suf : list ascii)
    (k : list ascii -> answer) (r : list ascii * option (list ascii)) :
  Forall (fun y => c y = true) pre ->
  star c suf k = Some r ->
  star c (pre ++ suf) k = Some r.
Proof.
  intros Hpre Hs. induction Hpre as [|y pre Hy _ IH]; simpl; [exact Hs|].
  rewrite Hy, IH. reflexivity.
Qed.

Lemma lower_not_hyphen (x : ascii) :
  cls_lower x = true -> cls_hyphen x = false /\ cls_not_hyphen x = true.
Proof.
  intros Hx. unfold cls_not_hyphen, cls_hyphen.
  destruct (Ascii.eqb_spec x "-"%char) as [E | _].
  - subst x. discriminate Hx.
  - split; reflexivity.
Qed.

Lemma not_newline_dot (l : list ascii) :
  ~ In newline l -> Forall (fun y => cls_dot y = true) l.
Proof.
  intros H. apply Forall_forall. intros y Hy. unfold cls_dot.
  destruct (Ascii.eqb_spec y newline) as [E | _]; [subst; contradiction | reflexivity].
Qed.

(** On a byte string whose last two bytes are a byte other than [-] and a
    lowercase letter, with no newline before them, [regionRE] matches the
    whole string and captures it without its last byte. ([[^-]] matches a
    newline, so the byte before the letter may be one.) *)
Lemma regionRE_submatch (pre : list ascii) (c0 x : ascii) :
  ~ In newline pre ->
  c0 <> "-"%char ->
  cls_lower x = true ->
  FindStringSubmatch regionRE (pre ++ [c0; x]) = Some [pre ++ [c0; x]; pre ++ [c0]].
Proof.
  intros Hnl Hc0 Hx.
  pose proof (not_newline_dot _ Hnl) as Hpre.
  destruct (lower_not_hyphen x Hx) as [Hxh Hxnh].
  assert (Hc0nh : cls_not_hyphen c0 = true).
  { unfold cls_not_hyphen. destruct (Ascii.eqb_spec c0 "-"%char); [contradiction | reflexivity]. }
  rewrite FindStringSubmatch_unfold.
  cbn [matcher regionRE].
  match goal with
  | |- context [star cls_dot (pre ++ [c0; x]) ?K] =>
      assert (H2 : star cls_dot [c0; x] K
                   = Some ([], Some (firstn (List.length (pre ++ [c0; x]) - 1)
                                            (pre ++ [c0; x]))))
  end.
  { cbn [star]. destruct (cls_dot c0); [destruct (cls_dot x)|]; cbn;
      rewrite ?Hxnh, ?Hc0nh, ?Hxh, ?Hx; reflexivity. }
  rewrite (star_app _ _ _ _ _ Hpre H2).
  cbn [List.length]. rewrite Nat.sub_0_r, firstn_all.
  rewrite List.length_app. cbn [List.length].
  replace (List.length pre + 2 - 1) with (List.length pre + 1) by lia.
  rewrite firstn_app_2. reflexivity.
Qed.

End RegionRE.

Lemma Locality_zone_nl :
  Locality "local" (vm_in "n1" "gce" zone_nl) = Some ("region=c,zone=" ++ zone_nl).
Proof. vm_compute. reflexivity. Qed.

(** C10 (as stated, refuted): a non-local zone ending in a lowercase letter
    preceded by a byte other than [-] need not yield the zone without its
    final letter as region: [.] does not match a newline, so on
    ["ab\ncd"] the leftmost match starts after the newline and the region
    is ["c"]. *)
Lemma Locality_strip_final_letter_counterexample :
  ~ (forall (Local : string) (vm : VM.t) (pre : list ascii) (c0 x : ascii),
        list_ascii_of_string (VM.Zone vm) = (pre ++ [c0; x])%list ->
        c0 <> "-"%char ->
        cls_lower x = true ->
        VM.Zone vm <> Local ->
        Locality Local vm
        = Some ("region=" ++ string_of_list_ascii (pre ++ [c0])%list
                ++ ",zone=" ++ VM.Zone vm)).
Proof.
  intros H.
  specialize (H "local" (vm_in "n1" "gce" zone_nl) ["a"; "b"; newline]%char
                "c"%char "d"%char eq_refl ltac:(discriminate) eq_refl
                ltac:(discriminate)).
  vm_compute in H. discriminate H.
Qed.

(** C10 (amended): for a non-local VM whose zone ends in a lowercase ASCII
    letter preceded by a byte other than [-] (e.g. ["useast1b"]), with no
    newline before these last two bytes, [Locality()] does not reach
    [log.Fatalf] and the region is the zone without its final letter. *)
Theorem Locality_strip_final_letter (Local : string) (vm : VM.t)
    (pre : list ascii) (c0 x : ascii) :
  list_ascii_of_string (VM.Zone vm) = (pre ++ [c0; x])%list ->
  ~ In newline pre ->
  c0 <> "-"%char ->
  cls_lower x = true ->
  VM.Zone vm <> Local ->
  Locality Local vm
  = Some ("region=" ++ string_of_list_ascii (pre ++ [c0])%list
          ++ ",zone=" ++ VM.Zone vm).
Proof.
  intros Hz Hnl Hc0 Hx Hl.
  unfold Locality, IsLocal.
  destruct (String.eqb_spec (VM.Zone vm) Local) as [E | _]; [contradiction|].
  rewrite Hz, (regionRE_submatch pre c0 x Hnl Hc0 Hx). reflexivity.
Qed.

Lemma Locality_strip_final_letter_witness :
  Locality "local" (vm_in "n1" "gce" "useast1b") = Some "region=useast1,zone=useast1b"
  /\ Locality "local" (vm_in "n1" "gce" zone_anb)
     = Some ("region=" ++ string_of_list_ascii ["a"%char; newline] ++ ",zone=" ++ zone_anb).
Proof.
  split.
  - apply (Locality_strip_final_letter "local" (vm_in "n1" "gce" "useast1b")
             ["u"; "s"; "e"; "a"; "s"; "t"]%char "1"%char "b"%char).
    + reflexivity.
    + simpl. intuition discriminate.
    + discriminate.
    + reflexivity.
    + discriminate.
  - apply (Locality_strip_final_letter "local" (vm_in "n1" "gce" zone_anb)
             ["a"%char] newline "b"%char).
    + reflexivity.
    + simpl. intros [H|[]]. vm_compute in H. discriminate H.
    + intros H. vm_compute in H. discriminate H.
    + reflexivity.
    + discriminate.
Defined.

(** ** FindActiveAccount *)

Section Resolver.
Local Open Scope list_scope.

Lemma nonempty_length (a : string) : (0 < String.length a)%nat <-> a <> ""%string.
Proof. destruct a; simpl; split; intros H; try lia; congruence. Qed.

(** The closure of [FindActiveAccount] leaves the cache alone. *)
Lemma ProvidersSequential_findAction_cache (Providers : registry) (names : list string)
    (st st' : State) (accts accts' : list (string * string)) (r : option error) :
  ProvidersSequential Providers names findAction (st, accts) = (r, (st', accts')) ->
  cachedActiveAccount st' = cachedActiveAccount st.
Proof.
  revert st accts. induction names as [|n names IH]; intros st accts H.
  - inversion H; reflexivity.
  - cbn [ProvidersSequential] in H. unfold bind at 1, ForProvider in H.
    destruct (lookup n Providers) as [p|].
    + unfold bind, findAction in H.
      destruct (Provider.FindActiveAccount p) as [acct [e|]].
      * inversion H; reflexivity.
      * apply IH in H. exact H.
    + inversion H; reflexivity.
Qed.

Lemma map_set_fresh {A} (k : string) (v : A) (m : list (string * A)) :
  ~ In k (map fst m) -> map_set k v m = m ++ [(k, v)].
Proof.
  induction m as [|[k' v'] m IH]; intros H; [reflexivity|].
  simpl in *. destruct (String.eqb_spec k k') as [E|_].
  - exfalso. apply H. left. symmetry. exact E.
  - rewrite IH; [reflexivity|]. intros H'. apply H. right. exact H'.
Qed.

Lemma lookup_in {A} (k : string) (v : A) (m : list (string * A)) :
  NoDup (map fst m) -> In (k, v) m -> lookup k m = Some v.
Proof.
  induction m as [|[k' v'] m IH]; intros Hnd Hin; [destruct Hin|].
  simpl in *. inversion Hnd as [|? ? Hk' Hnd']; subst.
  destruct Hin as [E|Hin].
  - inversion E; subst. rewrite String.eqb_refl. reflexivity.
  - destruct (String.eqb_spec k k') as [E|_].
    + subst. exfalso. apply Hk'. apply (in_map fst _ _ Hin).
    + apply IH; assumption.
Qed.

Lemma accounts_of_keys (l : registry) : map fst (accounts_of l) = map fst l.
Proof. induction l as [|[k p] l IH]; simpl; [reflexivity | rewrite IH; reflexivity]. Qed.

(** On a registry whose providers are named after their keys and answer
    without error, the sequential run records every account. *)
Lemma ProvidersSequential_findAction_ok (Providers : registry) :
  forall (l : registry) (st : State) (accts : list (string * string)),
  NoDup (map fst Providers) ->
  NoDup (map fst accts ++ map fst l) ->
  (forall k p, In (k, p) l ->
     In (k, p) Providers /\ Provider.Name p = k
     /\ snd (Provider.FindActiveAccount p) = None) ->
  exists st',
    ProvidersSequential Providers (map fst l) findAction (st, accts)
    = (None, (st', accts ++ accounts_of l)).
Proof.
  induction l as [|[k p] l IH]; intros st accts Hnd Hnd' Hl.
  - exists st. rewrite app_nil_r. reflexivity.
  - destruct (Hl k p (or_introl eq_refl)) as [Hin [Hname Hok]].
    cbn [map fst ProvidersSequential]. unfold bind at 1, ForProvider.
    rewrite (lookup_in k p Providers Hnd Hin).
    unfold bind at 1, findAction.
    destruct (Provider.FindActiveAccount p) as [acct e] eqn:Hf.
    simpl in Hok. subst e. cbn.
    rewrite Hname.
    assert (Hfresh : ~ In k (map fst accts)).
    { intros Hk. simpl in Hnd'. apply NoDup_remove_2 in Hnd'.
      apply Hnd'. apply in_or_app. left. exact Hk. }
    rewrite (map_set_fresh _ _ _ Hfresh).
    destruct (IH (mkState (cachedActiveAccount st)
                          (providerCalls st ++ [Provider.Name p]))
                 (accts ++ [(k, acct)]) Hnd) as [st' Hst'].
    + rewrite map_app. simpl. rewrite <- app_assoc. exact Hnd'.
    + intros k' p' Hin'. apply Hl. right. exact Hin'.
    + rewrite Hname in Hst'. exists st'. fold findAction. rewrite Hst'.
      rewrite <- app_assoc. simpl. rewrite Hf. reflexivity.
Qed.

Lemma map_incr_keys (k a : string) (m : list (string * nat)) :
  In a (map fst (map_incr k m)) <-> a = k \/ In a (map fst m).
Proof.
  induction m as [|[k' n] m IH]; simpl; [intuition congruence|].
  destruct (String.eqb_spec k k') as [E|_]; simpl.
  - subst. intuition congruence.
  - rewrite IH. intuition congruence.
Qed.

Lemma map_incr_nodup (k : string) (m : list (string * nat)) :
  NoDup (map fst m) -> NoDup (map fst (map_incr k m)).
Proof.
  induction m as [|[k' n] m IH]; intros Hnd; simpl.
  - constructor; [intros []|constructor].
  - inversion Hnd as [|? ? Hk' Hnd']; subst.
    destruct (String.eqb_spec k k') as [E|Ne]; simpl.
    + exact Hnd.
    + constructor; [|apply IH, Hnd'].
      rewrite map_incr_keys. intros [E|E]; [apply Ne; symmetry; exact E | contradiction].
Qed.

(** The counting loop: [counts] holds exactly the distinct non-empty
    accounts (each once) and [lastAccount] is one of them, unless nothing
    was counted. *)
Lemma count_loop_spec (accts : list (string * string)) :
  forall counts lastAccount c l,
  count_loop accts counts lastAccount = (c, l) ->
  (forall a, In a (map fst c)
             <-> In a (map fst counts) \/ (a <> ""%string /\ In a (map snd accts)))
  /\ (NoDup (map fst counts) -> NoDup (map fst c))
  /\ ((c = counts /\ l = lastAccount) \/ In l (map fst c)).
Proof.
  induction accts as [|[k acct] rest IH]; intros counts last c l H; simpl in H.
  - inversion H; subst. split; [|split]; [simpl; tauto | tauto | left; tauto].
  - destruct (0 <? String.length acct)%nat eqn:E.
    + apply Nat.ltb_lt, nonempty_length in E.
      destruct (IH _ _ _ _ H) as [P1 [P2 P3]].
      split; [|split].
      * intros a. rewrite P1, map_incr_keys. simpl.
        split; [intros [[Ea|Ea]|[Ha Ea]]; subst; tauto
               | intros [Ea|[Ha [Ea|Ea]]]; subst; tauto].
      * intros Hnd. apply P2, map_incr_nodup, Hnd.
      * right. destruct P3 as [[Ec El]|P3]; [|exact P3].
        subst. rewrite map_incr_keys. left. reflexivity.
    + assert (Ea : acct = ""%string).
      { destruct acct; [reflexivity|]. simpl in E. discriminate E. }
      destruct (IH _ _ _ _ H) as [P1 [P2 P3]].
      split; [|split]; [|exact P2|exact P3].
      intros a. rewrite P1. simpl.
      split; [tauto|]. intros [Ha|[Ha [Eq|Eq]]]; [tauto| subst; contradiction | tauto].
Qed.

Lemma NoDup_single (l : list string) (a : string) :
  NoDup l -> In a l -> (forall x, In x l -> x = a) -> l = [a].
Proof.
  intros Hnd Ha Hall. destruct l as [|x [|y l]].
  - destruct Ha.
  - rewrite (Hall x (or_introl eq_refl)). reflexivity.
  - exfalso. inversion Hnd as [|? ? Hx _]; subst. apply Hx.
    rewrite (Hall x (or_introl eq_refl)), (Hall y (or_intror (or_introl eq_refl))).
    left. reflexivity.
Qed.

Lemma two_distinct_length (l : list string) (a b : string) :
  In a l -> In b l -> a <> b -> (2 <= List.length l)%nat.
Proof.
  intros Ha Hb Hab. destruct l as [|x [|y l]]; simpl in *.
  - destruct Ha.
  - destruct Ha as [Ha|[]]; destruct Hb as [Hb|[]]; subst; contradiction.
  - lia.
Qed.

Lemma empty_of_length (a : string) : String.length a = 0%nat -> a = ""%string.
Proof. destruct a; [reflexivity | discriminate]. Qed.

(** The outcomes of one call: a cache hit, or a resolution that fails
    leaving the empty cache empty, or one that succeeds with a non-empty
    account and stores it. *)
Lemma FindActiveAccount_cases (Providers : registry) (st st' : State)
    (r : string * option error) :
  FindActiveAccount Providers st = (r, st') ->
  ((0 < String.length (cachedActiveAccount st))%nat
   /\ r = (cachedActiveAccount st, None) /\ st' = st)
  \/ (cachedActiveAccount st = ""%string
      /\ ((snd r <> None /\ cachedActiveAccount st' = ""%string)
          \/ (snd r = None /\ cachedActiveAccount st' = fst r
              /\ (0 < String.length (fst r))%nat))).
Proof.
  unfold FindActiveAccount. intros H.
  destruct (0 <? String.length (cachedActiveAccount st))%nat eqn:E.
  - left. apply Nat.ltb_lt in E. inversion H; subst. repeat split; auto.
  - right. apply Nat.ltb_ge in E.
    assert (Hc : cachedActiveAccount st = ""%string) by (apply empty_of_length; lia).
    split; [exact Hc|].
    unfold resolveActiveAccount in H.
    destruct (ProvidersSequential Providers (AllProviderNames Providers) findAction
                (st, [])) as [err [st1 pa]] eqn:Hps.
    pose proof (ProvidersSequential_findAction_cache _ _ _ _ _ _ _ Hps) as Hst1.
    destruct err as [e|].
    + inversion H; subst. left. split; [discriminate|]. rewrite Hst1. exact Hc.
    + destruct (count_loop pa [] "") as [c l] eqn:Hcl.
      destruct (count_loop_spec _ _ _ _ _ Hcl) as [P1 [_ P3]].
      destruct (List.length c) as [|[|n]] eqn:Hlen; inversion H; subst.
      * left. split; [discriminate|]. rewrite Hst1. exact Hc.
      * right. split; [reflexivity|]. split; [reflexivity|]. simpl.
        destruct P3 as [[Ec _]|P3]; [subst c; discriminate Hlen|].
        apply P1 in P3. destruct P3 as [[]|[Hl _]]. apply nonempty_length, Hl.
      * left. split; [discriminate|]. rewrite Hst1. exact Hc.
Qed.

End Resolver.

(** C2: on a cache miss, for registered providers (named after their keys)
    whose [FindActiveAccount] calls all succeed, [FindActiveAccount] counts
    the distinct non-empty accounts: none gives the error
    ["no Providers returned any active accounts"], exactly one is returned
    as the consensus, and two or more give the error
    ["multiple active Provider accounts detected: ..."] printing the whole
    per-provider mapping. *)
Theorem FindActiveAccount_consensus (Providers : registry) (st : State) :
  NoDup (map fst Providers) ->
  (forall k p, In (k, p) Providers ->
     Provider.Name p = k /\ snd (Provider.FindActiveAccount p) = None) ->
  cachedActiveAccount st = ""%string ->
  ((forall v, In v (map snd (accounts_of Providers)) -> v = ""%string) ->
   fst (FindActiveAccount Providers st)
   = (""%string, Some (errors_New "no Providers returned any active accounts")))
  /\ (forall a, a <> ""%string -> In a (map snd (accounts_of Providers)) ->
      (forall v, In v (map snd (accounts_of Providers)) -> v = ""%string \/ v = a) ->
      fst (FindActiveAccount Providers st) = (a, None))
  /\ (forall a b, a <> ""%string -> b <> ""%string -> a <> b ->
      In a (map snd (accounts_of Providers)) ->
      In b (map snd (accounts_of Providers)) ->
      fst (FindActiveAccount Providers st)
      = (""%string, Some (Err ("multiple active Provider accounts detected: "
                               ++ fmt_map (accounts_of Providers))))).
Proof.
  intros Hnd Hwf Hc.
  destruct (ProvidersSequential_findAction_ok Providers Providers st [] Hnd Hnd)
    as [st1 Hrun].
  { intros k p Hin. destruct (Hwf k p Hin). auto. }
  unfold FindActiveAccount. rewrite Hc. cbn [String.length Nat.ltb Nat.leb].
  unfold resolveActiveAccount, AllProviderNames. rewrite Hrun. cbn [app].
  destruct (count_loop (accounts_of Providers) [] "") as [c l] eqn:Hcl.
  destruct (count_loop_spec _ _ _ _ _ Hcl) as [P1 [P2 P3]].
  specialize (P2 (NoDup_nil _)).
  assert (Hk : forall a, In a (map fst c)
                         <-> a <> ""%string /\ In a (map snd (accounts_of Providers))).
  { intros a. rewrite P1. simpl. tauto. }
  clear P1.
  split; [|split].
  - intros Hall. destruct c as [|[k n] c]; [reflexivity|].
    exfalso. destruct (proj1 (Hk k) (or_introl eq_refl)) as [Hne Hin].
    apply Hne, Hall, Hin.
  - intros a Ha Hin Hall.
    assert (Hc1 : map fst c = [a]).
    { apply NoDup_single; [exact P2 | apply Hk; auto |].
      intros x Hx. apply Hk in Hx. destruct Hx as [Hne Hx].
      destruct (Hall x Hx); [contradiction | assumption]. }
    assert (Hlen : List.length c = 1%nat).
    { rewrite <- (length_map fst), Hc1. reflexivity. }
    rewrite Hlen. simpl.
    destruct P3 as [[Ec _]|P3]; [subst c; discriminate Hlen|].
    rewrite Hc1 in P3. destruct P3 as [E|[]]. subst. reflexivity.
  - intros a b Ha Hb Hab Hina Hinb.
    assert (H2 : (2 <= List.length (map fst c))%nat).
    { apply (two_distinct_length _ a b); [apply Hk; auto | apply Hk; auto | exact Hab]. }
    rewrite length_map in H2.
    destruct (List.length c) as [|[|n]]; [lia | lia | reflexivity].
Qed.

Lemma FindActiveAccount_consensus_witness :
  fst (FindActiveAccount R3 st0) = ("acct1"%string, None).
Proof.
  refine (proj1 (proj2 (FindActiveAccount_consensus R3 st0 _ _ _)) "acct1" _ _ _).
  - repeat constructor; simpl; intuition discriminate.
  - intros k p Hin. simpl in Hin.
    destruct Hin as [E|[E|[E|[]]]]; inversion E; subst; split; reflexivity.
  - reflexivity.
  - discriminate.
  - simpl. auto.
  - intros v Hv. simpl in Hv. intuition.
Defined.

(** C3: after a call of [FindActiveAccount] returned an account [a]
    without error, [a] is non-empty, it is cached, and a second call
    (whatever the providers would now answer) returns [a] and leaves the
    state as it is: no provider is called. *)
Theorem FindActiveAccount_memoized (Providers Providers' : registry)
    (st st' : State) (a : string) :
  FindActiveAccount Providers st = ((a, None), st') ->
  a <> ""%string /\ cachedActiveAccount st' = a
  /\ FindActiveAccount Providers' st' = ((a, None), st').
Proof.
  intros H.
  assert (Hc : cachedActiveAccount st' = a /\ (0 < String.length a)%nat).
  { destruct (FindActiveAccount_cases _ _ _ _ H)
      as [[Hlen [Er Est]]|[_ [[Hr _]|[_ [Hc Hlen]]]]].
    - inversion Er; subst. auto.
    - simpl in Hr. contradiction.
    - simpl in *. auto. }
  destruct Hc as [Hc Hlen].
  split; [apply nonempty_length, Hlen|]. split; [exact Hc|].
  unfold FindActiveAccount. rewrite Hc.
  apply Nat.ltb_lt in Hlen. rewrite Hlen. reflexivity.
Qed.

Lemma FindActiveAccount_memoized_witness :
  FindActiveAccount [] (mkState "acct1" ["aws"; "gcp"; "azure"])
  = (("acct1"%string, None), mkState "acct1" ["aws"; "gcp"; "azure"]).
Proof.
  apply (proj2 (proj2 (FindActiveAccount_memoized R3 [] st0
                         (mkState "acct1" ["aws"; "gcp"; "azure"]) "acct1"
                         ltac:(vm_compute; reflexivity)))).
Defined.

(** C9: the cache is written only by a successful resolution on a cache
    miss. A failing call finds the cache empty and leaves it empty, so the
    next call resolves again; a successful call leaves the returned account
    in the cache, which was empty or already held it; a call on a non-empty
    cache changes nothing; and once the cache is non-empty, no later call
    of the process changes the state. *)
Theorem FindActiveAccount_cache_write_once (Providers Providers' : registry)
    (st st' : State) (r : string * option error) :
  FindActiveAccount Providers st = (r, st') ->
  (snd r <> None ->
   cachedActiveAccount st = ""%string /\ cachedActiveAccount st' = ""%string
   /\ FindActiveAccount Providers' st' = resolveActiveAccount Providers' st')
  /\ (snd r = None ->
      cachedActiveAccount st' = fst r
      /\ (cachedActiveAccount st = ""%string \/ cachedActiveAccount st = fst r))
  /\ (cachedActiveAccount st <> ""%string ->
      st' = st /\ r = (cachedActiveAccount st, None))
  /\ (forall regs, cachedActiveAccount st' <> ""%string ->
      snd (FindActiveAccount_calls regs st') = st').
Proof.
  intros H.
  destruct (FindActiveAccount_cases _ _ _ _ H)
    as [[Hlen [Er Est]]|[Hc0 [[Hr Hc']|[Hr [Hc' Hlen]]]]].
  - subst r st'. split; [|split; [|split]].
    + simpl. intros Hr. exfalso. apply Hr. reflexivity.
    + intros _. simpl. split; [reflexivity | right; reflexivity].
    + intros _. split; reflexivity.
    + intros regs Hne. apply nonempty_length, Nat.ltb_lt in Hne.
      induction regs as [|R regs IH]; [reflexivity|].
      simpl. unfold bind, ret, FindActiveAccount at 1. rewrite Hne.
      destruct (FindActiveAccount_calls regs st) eqn:E. exact IH.
  - split; [|split; [|split]].
    + intros _. split; [exact Hc0|]. split; [exact Hc'|].
      unfold FindActiveAccount. rewrite Hc'. reflexivity.
    + intros E. contradiction.
    + intros Hne. contradiction.
    + intros regs Hne. contradiction.
  - split; [|split; [|split]].
    + intros E. contradiction.
    + intros _. split; [exact Hc' | left; exact Hc0].
    + intros Hne. contradiction.
    + intros regs _. rewrite <- Hc' in Hlen. apply Nat.ltb_lt in Hlen.
      induction regs as [|R regs IH]; [reflexivity|].
      simpl. unfold bind, ret, FindActiveAccount at 1. rewrite Hlen.
      destruct (FindActiveAccount_calls regs st') eqn:E. exact IH.
Qed.

Lemma FindActiveAccount_cache_write_once_witness :
  cachedActiveAccount (snd (FindActiveAccount R_split st0)) = ""%string.
Proof.
  destruct (FindActiveAccount R_split st0) as [r st'] eqn:E.
  destruct (FindActiveAccount_cache_write_once R_split R3 st0 st' r E) as [Herr _].
  apply Herr. vm_compute in E. inversion E. discriminate.
Defined.

(** ** FanOut and ProvidersParallel *)

Lemma valid_schedule_after_loop2 : valid_schedule 2 [(0, 1); (1, 1)]%nat.
Proof. split; [apply Permutation_refl | repeat constructor; lia]. Qed.

Lemma valid_schedule_after_loop3 : valid_schedule 3 [(0, 2); (1, 2); (2, 2)]%nat.
Proof. split; [apply Permutation_refl | repeat constructor; lia]. Qed.

Lemma valid_schedule_own_iteration (n : nat) : valid_schedule n (own_iteration n).
Proof.
  split.
  - unfold own_iteration. rewrite map_map. simpl. rewrite map_id. apply Permutation_refl.
  - apply Forall_forall. intros [i j] Hin. unfold own_iteration in Hin.
    apply in_map_iff in Hin. destruct Hin as [k [E Hk]]. inversion E; subst.
    apply in_seq in Hk. lia.
Qed.

(** C1 (code bug): on [[n1 (aws); n2 (gcp); n3 (aws)]], with [m] iterated
    as [aws, gcp] and both goroutines running after the loop (a valid
    schedule, the one of a single-threaded runtime), both goroutines read
    [name = "gcp"], [vms = [n2]]: the action runs twice on gcp and never on
    aws. *)
Theorem FanOut_shared_range_vars :
  valid_schedule 2 [(0, 1); (1, 1)]%nat
  /\ Permutation [0; 1]%nat (seq 0 (List.length (collate [n1; n2; n3] [])))
  /\ FanOut R_aws_gcp [n1; n2; n3] [0; 1]%nat [(0, 1); (1, 1)]%nat
       (logged2 succeed2) []
     = (None, [(pgcp, [n2]); (pgcp, [n2])]).
Proof.
  split; [exact valid_schedule_after_loop2|].
  split; [apply Permutation_refl | reflexivity].
Qed.

(** With every goroutine reading its own iteration, the action runs once
    per provider on its sub-list. *)
Lemma FanOut_own_iteration :
  FanOut R_aws_gcp [n1; n2; n3] [0; 1]%nat (own_iteration 2) (logged2 succeed2) []
  = (None, [(paws, [n1; n3]); (pgcp, [n2])]).
Proof. reflexivity. Qed.

(** C5 (code bug): on [[nb (bogus); n2' (aws)]] with only aws registered,
    both goroutines read the last group: iterating [bogus, aws], the action
    runs twice on aws and no "unknown provider name" error is returned;
    iterating [aws, bogus], both fail with "unknown provider name: bogus"
    and aws is never invoked. *)
Theorem FanOut_unknown_provider_shared_range_vars :
  valid_schedule 2 [(0, 1); (1, 1)]%nat
  /\ Permutation [0; 1]%nat (seq 0 (List.length (collate [nb; n1] [])))
  /\ Permutation [1; 0]%nat (seq 0 (List.length (collate [nb; n1] [])))
  /\ FanOut R_aws [nb; n1] [0; 1]%nat [(0, 1); (1, 1)]%nat (logged2 succeed2) []
     = (None, [(paws, [n1]); (paws, [n1])])
  /\ FanOut R_aws [nb; n1] [1; 0]%nat [(0, 1); (1, 1)]%nat (logged2 succeed2) []
     = (Some (Err "unknown provider name: bogus"), []).
Proof.
  split; [exact valid_schedule_after_loop2|].
  split; [apply Permutation_refl|].
  split; [apply perm_swap|].
  split; reflexivity.
Qed.

Lemma FanOut_unknown_provider_own_iteration :
  FanOut R_aws [nb; n1] [0; 1]%nat (own_iteration 2) (logged2 succeed2) []
  = (Some (Err "unknown provider name: bogus"), [(paws, [n1])]).
Proof. reflexivity. Qed.

(** C7 (code bug): over [["A"; "B"; "C"]] with only B's action failing, the
    three goroutines run after the loop (a valid schedule) and all read
    [name = "C"]: [ForProvider("C")] runs three times, A and B are never
    invoked, and nil is returned. *)
Theorem ProvidersParallel_shared_range_var :
  valid_schedule 3 [(0, 2); (1, 2); (2, 2)]%nat
  /\ ProvidersParallel R_ABC ["A"; "B"; "C"] [(0, 2); (1, 2); (2, 2)]%nat
       (logged fails_on_B) (tt, [])
     = (None, (tt, [pC; pC; pC])).
Proof. split; [exact valid_schedule_after_loop3 | reflexivity]. Qed.

Lemma ProvidersParallel_own_iteration :
  ProvidersParallel R_ABC ["A"; "B"; "C"] (own_iteration 3) (logged fails_on_B) (tt, [])
  = (Some (errors_Wrapf (Err "boom") "in provider: B"), (tt, [pA; pB; pC])).
Proof. reflexivity. Qed.

(** * Further properties of package [vm] *)

(** ** Names and Zones *)

Section ListOps.
Local Open Scope list_scope.

Lemma set_nth_app_length {A} (pre post : list A) (x v : A) :
  set_nth (pre ++ x :: post) (List.length pre) v = pre ++ v :: post.
Proof. induction pre as [|y pre IH]; simpl; [reflexivity | rewrite IH; reflexivity]. Qed.

Lemma fill_loop_map (f : VM.t -> string) (vl : VM.List) (pre : list string) :
  fill_loop f vl (List.length pre) (pre ++ repeat "" (List.length vl)) = pre ++ map f vl.
Proof.
  revert pre. induction vl as [|vm rest IH]; intros pre; simpl.
  - rewrite app_nil_r. reflexivity.
  - rewrite set_nth_app_length.
    replace (S (List.length pre)) with (List.length (pre ++ [f vm]))
      by (rewrite length_app; simpl; lia).
    replace (pre ++ f vm :: repeat "" (List.length rest))
      with ((pre ++ [f vm]) ++ repeat "" (List.length rest))
      by (rewrite <- app_assoc; reflexivity).
    rewrite IH, <- app_assoc. reflexivity.
Qed.

(** [Names()] is the list of the VMs' names, parallel to the [List]: same
    length, same order. *)
Theorem Names_map (vl : VM.List) : Names vl = map VM.Name vl.
Proof. exact (fill_loop_map VM.Name vl []). Qed.

(** [Zones()] is the list of the VMs' zones, parallel to the [List]. *)
Theorem Zones_map (vl : VM.List) : Zones vl = map VM.Zone vl.
Proof. exact (fill_loop_map VM.Zone vl []). Qed.

(** ** Swap and Less *)

Lemma nth_error_set_nth {A} (l : list A) (i k : nat) (v : A) :
  nth_error (set_nth l i v) k
  = if Nat.eqb k i then match nth_error l k with Some _ => Some v | None => None end
    else nth_error l k.
Proof.
  revert i k. induction l as [|x l IH]; intros i k.
  - destruct k; simpl; match goal with |- context [if ?b then _ else _] => destruct b end; reflexivity.
  - destruct i as [|i], k as [|k]; simpl; try reflexivity.
    apply IH.
Qed.

Lemma transpose_involutive (i j k : nat) : transpose i j (transpose i j k) = k.
Proof.
  unfold transpose.
  destruct (Nat.eqb_spec k i), (Nat.eqb_spec k j); subst;
    repeat (rewrite ?Nat.eqb_refl; simpl);
    repeat match goal with
           | |- context [Nat.eqb ?a ?b] => destruct (Nat.eqb_spec a b)
           end; subst; congruence.
Qed.

Lemma Swap_nth_error (vl : VM.List) (i j : nat) (vi vj : VM.t) (k : nat) :
  nth_error vl i = Some vi -> nth_error vl j = Some vj ->
  nth_error (set_nth (set_nth vl i vj) j vi) k = nth_error vl (transpose i j k).
Proof.
  intros Hi Hj. rewrite !nth_error_set_nth. unfold transpose.
  destruct (Nat.eqb_spec k j) as [Ekj|Nkj]; destruct (Nat.eqb_spec k i) as [Eki|Nki];
    subst; try rewrite Hi; try rewrite Hj; reflexivity.
Qed.

Lemma length_set_nth {A} (l : list A) (i : nat) (v : A) :
  List.length (set_nth l i v) = List.length l.
Proof.
  revert i. induction l as [|x l IH]; intros i; [destruct i; reflexivity|].
  destruct i; simpl; [reflexivity | rewrite IH; reflexivity].
Qed.

Lemma in_range (vl : VM.List) (i : nat) :
  (i < Len vl)%nat -> exists v, nth_error vl i = Some v.
Proof.
  intros H. destruct (nth_error vl i) as [v|] eqn:E; [exists v; reflexivity|].
  apply nth_error_None in E. unfold Len in H. lia.
Qed.

(** The nat-level exchange, on which [Swap] at non-negative indices runs. *)
Lemma swap_at_spec (vl : VM.List) (i j : nat) :
  (swap_at vl i j = None <-> (Len vl <= i \/ Len vl <= j)%nat)
  /\ ((i < Len vl)%nat -> (j < Len vl)%nat ->
      exists l', swap_at vl i j = Some l' /\ Permutation vl l'
      /\ nth_error l' i = nth_error vl j /\ nth_error l' j = nth_error vl i
      /\ (forall k, k <> i -> k <> j -> nth_error l' k = nth_error vl k)).
Proof.
  unfold Len. split.
  - unfold swap_at. rewrite <- !nth_error_None.
    destruct (nth_error vl i), (nth_error vl j); split; intros H;
      try discriminate; try tauto; destruct H; discriminate.
  - intros Hi Hj.
    destruct (in_range vl i Hi) as [vi Ei], (in_range vl j Hj) as [vj Ej].
    exists (set_nth (set_nth vl i vj) j vi).
    split; [unfold swap_at; rewrite Ei, Ej; reflexivity|].
    assert (Hn := Swap_nth_error vl i j vi vj).
    split; [|split; [|split]].
    + apply Permutation_nth_error. split.
      * rewrite !length_set_nth. reflexivity.
      * exists (transpose i j). split.
        -- intros x y Exy. rewrite <- (transpose_involutive i j x), Exy.
           apply transpose_involutive.
        -- intros n. apply Hn; assumption.
    + rewrite Hn by assumption. unfold transpose. rewrite Nat.eqb_refl. reflexivity.
    + rewrite Hn by assumption. unfold transpose.
      destruct (Nat.eqb_spec j i); subst; [reflexivity|]. rewrite Nat.eqb_refl. reflexivity.
    + intros k Hki Hkj. rewrite Hn by assumption. unfold transpose.
      apply Nat.eqb_neq in Hki, Hkj. rewrite Hki, Hkj. reflexivity.
Qed.

Lemma swap_at_involutive (vl l' : VM.List) (i j : nat) :
  swap_at vl i j = Some l' -> swap_at l' i j = Some vl.
Proof.
  unfold swap_at at 1. intros H.
  destruct (nth_error vl i) as [vi|] eqn:Ei; [|discriminate].
  destruct (nth_error vl j) as [vj|] eqn:Ej; [|discriminate].
  injection H as <-.
  assert (Hn := Swap_nth_error vl i j vi vj).
  assert (Hi' : nth_error (set_nth (set_nth vl i vj) j vi) i = Some vj).
  { rewrite Hn by assumption. unfold transpose. rewrite Nat.eqb_refl. exact Ej. }
  assert (Hj' : nth_error (set_nth (set_nth vl i vj) j vi) j = Some vi).
  { rewrite Hn by assumption. unfold transpose.
    destruct (Nat.eqb_spec j i); subst; [congruence|]. rewrite Nat.eqb_refl. exact Ei. }
  unfold swap_at. rewrite Hi', Hj'.
  match goal with |- Some ?l = Some _ => cut (l = vl); [intros ->; reflexivity|] end.
  apply nth_error_ext. intros k.
  rewrite (Swap_nth_error _ i j vj vi k Hi' Hj'), Hn by assumption.
  rewrite transpose_involutive. reflexivity.
Qed.

Lemma index_nat {A} (l : list A) (n : nat) : index l (Z.of_nat n) = nth_error l n.
Proof.
  unfold index. replace (Z.of_nat n <? 0)%Z with false by (symmetry; apply Z.ltb_ge; lia).
  rewrite Nat2Z.id. reflexivity.
Qed.

Lemma index_neg {A} (l : list A) (i : Z) : (i < 0)%Z -> index l i = None.
Proof. intros H. unfold index. apply Z.ltb_lt in H. rewrite H. reflexivity. Qed.

Lemma Swap_nat (vl : VM.List) (i j : nat) :
  Swap vl (Z.of_nat i) (Z.of_nat j) = swap_at vl i j.
Proof. unfold Swap, swap_at. rewrite !index_nat, !Nat2Z.id. reflexivity. Qed.

Lemma Swap_neg (vl : VM.List) (i j : Z) : (i < 0 \/ j < 0)%Z -> Swap vl i j = None.
Proof.
  intros [H|H]; unfold Swap; rewrite (index_neg _ _ H); [reflexivity|].
  destruct (index vl i); reflexivity.
Qed.

(** [Swap(i, j)] panics exactly when an index is out of range (negative, or
    at least [Len()]); in range it exchanges the VMs at [i] and [j], leaves
    every other position as it is, and so permutes the [List]. *)
Theorem Swap_spec (vl : VM.List) (i j : Z) :
  (Swap vl i j = None
   <-> (i < 0 \/ j < 0 \/ Z.of_nat (Len vl) <= i \/ Z.of_nat (Len vl) <= j)%Z)
  /\ ((0 <= i < Z.of_nat (Len vl))%Z -> (0 <= j < Z.of_nat (Len vl))%Z ->
      exists l', Swap vl i j = Some l' /\ Permutation vl l'
      /\ index l' i = index vl j /\ index l' j = index vl i
      /\ (forall k : Z, k <> i -> k <> j -> index l' k = index vl k)).
Proof.
  destruct (Z_lt_le_dec i 0) as [Hi0|Hi0]; [|destruct (Z_lt_le_dec j 0) as [Hj0|Hj0]].
  - split; [|lia]. rewrite (Swap_neg vl i j (or_introl Hi0)). split; [lia | reflexivity].
  - split; [|lia]. rewrite (Swap_neg vl i j (or_intror Hj0)). split; [lia | reflexivity].
  - rewrite <- (Z2Nat.id i Hi0), <- (Z2Nat.id j Hj0).
    set (ni := Z.to_nat i). set (nj := Z.to_nat j). clearbody ni nj.
    rewrite Swap_nat.
    destruct (swap_at_spec vl ni nj) as [P1 P2]. split.
    + rewrite P1. lia.
    + intros Hi Hj.
      destruct (P2 ltac:(lia) ltac:(lia)) as [l' [E [Hp [Ei [Ej Ek]]]]].
      exists l'. split; [exact E|]. split; [exact Hp|].
      rewrite !index_nat. split; [exact Ei|]. split; [exact Ej|].
      intros k Hki Hkj. destruct (Z_lt_le_dec k 0) as [Hk0|Hk0].
      * rewrite !index_neg by exact Hk0. reflexivity.
      * rewrite <- (Z2Nat.id k Hk0), !index_nat in *. apply Ek; lia.
Qed.

(** Swapping the same two indices twice gives the [List] back. *)
Theorem Swap_involutive (vl l' : VM.List) (i j : Z) :
  Swap vl i j = Some l' -> Swap l' i j = Some vl.
Proof.
  destruct (Z_lt_le_dec i 0) as [Hi0|Hi0]; [rewrite Swap_neg by lia; discriminate|].
  destruct (Z_lt_le_dec j 0) as [Hj0|Hj0]; [rewrite Swap_neg by lia; discriminate|].
  rewrite <- (Z2Nat.id i Hi0), <- (Z2Nat.id j Hj0), !Swap_nat.
  apply swap_at_involutive.
Qed.

Lemma Swap_spec_witness :
  Swap [n1; n2; n3] (-1) 0 = None
  /\ exists l', Swap [n1; n2; n3] 0 2 = Some l' /\ Permutation [n1; n2; n3] l'
  /\ index l' 0 = index [n1; n2; n3] 2
  /\ index l' 2 = index [n1; n2; n3] 0
  /\ (forall k : Z, k <> 0%Z -> k <> 2%Z -> index l' k = index [n1; n2; n3] k).
Proof.
  split.
  - apply (proj1 (Swap_spec [n1; n2; n3] (-1) 0)). lia.
  - apply (proj2 (Swap_spec [n1; n2; n3] 0 2)); unfold Len; simpl; lia.
Defined.

Lemma Swap_involutive_witness :
  Swap [n3; n2; n1] 0 2 = Some [n1; n2; n3].
Proof. apply (Swap_involutive [n1; n2; n3]). reflexivity. Defined.

Lemma string_compare_refl (a : string) : String.compare a a = Eq.
Proof.
  induction a as [|x a IH]; simpl; [reflexivity|].
  unfold Ascii.compare. rewrite N.compare_refl. exact IH.
Qed.

Lemma string_compare_lt_trans (a b c : string) :
  String.compare a b = Lt -> String.compare b c = Lt -> String.compare a c = Lt.
Proof.
  revert b c. induction a as [|x a IH]; intros [|y b] [|z c]; simpl;
    try discriminate; try reflexivity.
  unfold Ascii.compare.
  destruct (N.compare_spec (Ascii.N_of_ascii x) (Ascii.N_of_ascii y)) as [Exy|Lxy|Gxy];
  destruct (N.compare_spec (Ascii.N_of_ascii y) (Ascii.N_of_ascii z)) as [Eyz|Lyz|Gyz];
    intros H1 H2; try discriminate.
  - rewrite Exy, Eyz, N.compare_refl. apply (IH b c H1 H2).
  - rewrite Exy, (proj2 (N.compare_lt_iff _ _) Lyz). reflexivity.
  - rewrite <- Eyz, (proj2 (N.compare_lt_iff _ _) Lxy). reflexivity.
  - rewrite (proj2 (N.compare_lt_iff _ _) (N.lt_trans _ _ _ Lxy Lyz)). reflexivity.
Qed.

(** [Less] is a strict order on in-range indices: irreflexive,
    asymmetric and transitive (Go's bytewise order on names). *)
Theorem Less_strict_order (vl : VM.List) (i j k : nat) :
  (i < Len vl)%nat -> (j < Len vl)%nat -> (k < Len vl)%nat ->
  Less vl i i = Some false
  /\ (Less vl i j = Some true -> Less vl j i = Some false)
  /\ (Less vl i j = Some true -> Less vl j k = Some true -> Less vl i k = Some true).
Proof.
  intros Hi Hj Hk.
  destruct (in_range vl i Hi) as [vi Ei], (in_range vl j Hj) as [vj Ej],
    (in_range vl k Hk) as [vk Ek].
  unfold Less, String.ltb. rewrite Ei, Ej, Ek.
  split; [|split].
  - rewrite string_compare_refl. reflexivity.
  - rewrite String.compare_antisym.
    destruct (String.compare (VM.Name vj) (VM.Name vi)); simpl; congruence.
  - intros H1 H2.
    destruct (String.compare (VM.Name vi) (VM.Name vj)) eqn:C1; try discriminate.
    destruct (String.compare (VM.Name vj) (VM.Name vk)) eqn:C2; try discriminate.
    rewrite (string_compare_lt_trans _ _ _ C1 C2). reflexivity.
Qed.

Lemma Less_strict_order_witness :
  Less [n1; n2; n3] 0 2 = Some true.
Proof.
  destruct (Less_strict_order [n1; n2; n3] 0 1 2) as [_ [_ T]];
    [unfold Len; simpl; lia .. |].
  apply T; reflexivity.
Defined.

End ListOps.

(** ** The grouping map of FanOut *)

Section Collate.
Local Open Scope list_scope.

Lemma lookup_map_set {A} (k p : string) (v : A) (m : list (string * A)) :
  lookup k (map_set p v m) = if String.eqb k p then Some v else lookup k m.
Proof.
  induction m as [|[k' v'] m IH]; simpl; [reflexivity|].
  destruct (String.eqb_spec p k') as [E|N]; simpl.
  - subst k'. destruct (String.eqb k p); reflexivity.
  - destruct (String.eqb_spec k k') as [E'|N']; simpl.
    + subst k'. destruct (String.eqb_spec k p) as [E''|_]; [subst; contradiction | reflexivity].
    + exact IH.
Qed.

Lemma map_set_keys {A} (x k : string) (v : A) (m : list (string * A)) :
  In x (map fst (map_set k v m)) -> x = k \/ In x (map fst m).
Proof.
  induction m as [|[k' v'] m IH]; simpl; [intros [E|[]]; auto|].
  destruct (String.eqb_spec k k'); simpl; [subst; tauto|].
  intros [E|H]; [tauto|]. destruct (IH H); tauto.
Qed.

Lemma map_set_nodup {A} (k : string) (v : A) (m : list (string * A)) :
  NoDup (map fst m) -> NoDup (map fst (map_set k v m)).
Proof.
  induction m as [|[k' v'] m IH]; intros Hnd; simpl.
  - constructor; [intros []|constructor].
  - inversion Hnd as [|? ? Hk' Hnd']; subst.
    destruct (String.eqb_spec k k'); simpl; [subst; exact Hnd|].
    constructor; [|apply IH, Hnd'].
    intros Hin. destruct (map_set_keys _ _ _ _ Hin); [congruence | contradiction].
Qed.

Lemma collate_lookup (l : VM.List) (m : list (string * VM.List)) (k : string) :
  lookup k (collate l m)
  = match lookup k m with
    | Some g => Some (g ++ group_of k l)
    | None => match group_of k l with [] => None | g => Some g end
    end.
Proof.
  revert m. induction l as [|vm rest IH]; intros m; simpl.
  - destruct (lookup k m); [rewrite app_nil_r|]; reflexivity.
  - rewrite IH, lookup_map_set. unfold group_of. simpl. fold (group_of k rest).
    rewrite (String.eqb_sym (VM.Provider vm) k).
    destruct (String.eqb_spec k (VM.Provider vm)) as [E|N].
    + subst k. destruct (lookup (VM.Provider vm) m); rewrite <- app_assoc; reflexivity.
    + reflexivity.
Qed.

(** The map [m] that [FanOut] builds sends each provider name to the VMs of
    the list tagged with it, in list order; a name no VM carries is absent,
    and each key occurs once. *)
Theorem collate_partition (l : VM.List) :
  (forall k, lookup k (collate l [])
             = match group_of k l with [] => None | g => Some g end)
  /\ NoDup (map fst (collate l [])).
Proof.
  split.
  - intros k. rewrite collate_lookup. reflexivity.
  - assert (H : forall m, NoDup (map fst m) -> NoDup (map fst (collate l m))).
    { induction l as [|vm rest IH]; intros m Hm; simpl; [exact Hm|].
      apply IH, map_set_nodup, Hm. }
    apply H. constructor.
Qed.

End Collate.

(** ** Composition of ProvidersSequential *)

Section Sequential.
Local Open Scope list_scope.
Context {S : Type}.

(** Unfolding of a run over a concatenation. *)
Lemma ProvidersSequential_app_run {T : Type} (Providers : registry) (l1 l2 : list string)
    (action : Provider.t -> M T (option error)) (s : T) :
  ProvidersSequential Providers (l1 ++ l2) action s
  = (r <- ProvidersSequential Providers l1 action ;;
     match r with
     | Some e => ret (Some e)
     | None => ProvidersSequential Providers l2 action
     end) s.
Proof.
  revert s. induction l1 as [|n l1 IH]; intros s; [reflexivity|].
  simpl. unfold bind. destruct (ForProvider Providers n action s) as [[e|] s'].
  - reflexivity.
  - rewrite IH. reflexivity.
Qed.

(** A run over registered names whose providers all succeed. *)
Lemma ProvidersSequential_all_ok_run (Providers : registry) (named : list string)
    (ps : list Provider.t) (action : Provider.t -> M S (option error)) :
  Forall2 (fun n p => lookup n Providers = Some p) named ps ->
  (forall p s, In p ps -> fst (action p s) = None) ->
  forall s log, exists s',
    ProvidersSequential Providers named (logged action) (s, log)
    = (None, (s', log ++ ps)).
Proof.
  intros H2. induction H2 as [|n p named ps Hl _ IH]; intros Hok s log.
  - exists s. rewrite app_nil_r. reflexivity.
  - simpl. unfold bind at 1, ForProvider. rewrite Hl.
    unfold bind at 1, logged at 1.
    destruct (action p s) as [r s1] eqn:Ea.
    assert (Hr : r = None).
    { change r with (fst (r, s1)). rewrite <- Ea. apply Hok. left. reflexivity. }
    subst r. simpl.
    destruct (IH (fun q s0 Hq => Hok q s0 (or_intror Hq)) s1 (log ++ [p])) as [s' Hs'].
    exists s'. fold (@logged S action). rewrite Hs', <- app_assoc. reflexivity.
Qed.

(** Running over [l1 ++ l2] runs over [l1], stops there on an error, and
    otherwise goes on over [l2]. *)
Theorem ProvidersSequential_app {T : Type} (Providers : registry) (l1 l2 : list string)
    (action : Provider.t -> M T (option error)) (s : T) :
  ProvidersSequential Providers (l1 ++ l2) action s
  = (r <- ProvidersSequential Providers l1 action ;;
     match r with
     | Some e => ret (Some e)
     | None => ProvidersSequential Providers l2 action
     end) s.
Proof. apply ProvidersSequential_app_run. Qed.

(** When every name is registered (to [ps], in order) and the action
    succeeds on those providers, [ProvidersSequential] invokes it once on
    each, in order, and returns nil. *)
Theorem ProvidersSequential_all_ok (Providers : registry) (named : list string)
    (ps : list Provider.t) (action : Provider.t -> M S (option error)) :
  Forall2 (fun n p => lookup n Providers = Some p) named ps ->
  (forall p s, In p ps -> fst (action p s) = None) ->
  forall s log, exists s',
    ProvidersSequential Providers named (logged action) (s, log)
    = (None, (s', log ++ ps)).
Proof. apply ProvidersSequential_all_ok_run. Qed.

(** A name that is not registered stops [ProvidersSequential] with
    ["unknown vm provider: <name>"]: the names before it were all handled,
    no later name is. *)
Theorem ProvidersSequential_unknown_stops (Providers : registry)
    (pre post : list string) (n : string) (ps : list Provider.t)
    (action : Provider.t -> M S (option error)) (s : S) (log : list Provider.t) :
  Forall2 (fun n p => lookup n Providers = Some p) pre ps ->
  (forall p s, In p ps -> fst (action p s) = None) ->
  lookup n Providers = None ->
  exists s',
    ProvidersSequential Providers (pre ++ n :: post)%list (logged action) (s, log)
    = (Some (Err ("unknown vm provider: " ++ n)%string), (s', (log ++ ps)%list)).
Proof.
  intros H2 Hok Hn.
  destruct (ProvidersSequential_all_ok_run Providers pre ps action H2 Hok s log) as [s' Hs'].
  exists s'. rewrite ProvidersSequential_app_run. unfold bind at 1. rewrite Hs'.
  simpl. unfold bind, ForProvider. rewrite Hn. reflexivity.
Qed.

End Sequential.

(** ** FindActiveAccount: provider calls and provider errors *)

Section ResolverCalls.
Local Open Scope list_scope.

(** The sequential run of [findAction] over providers that answer without
    error: each is called once, in order, and its account recorded. *)
Lemma ProvidersSequential_findAction_run (Providers : registry) :
  forall (l : registry) (st : State) (accts : list (string * string)),
  NoDup (map fst Providers) ->
  NoDup (map fst accts ++ map fst l) ->
  (forall k p, In (k, p) l ->
     In (k, p) Providers /\ Provider.Name p = k
     /\ snd (Provider.FindActiveAccount p) = None) ->
  ProvidersSequential Providers (map fst l) findAction (st, accts)
  = (None, (mkState (cachedActiveAccount st) (providerCalls st ++ map fst l),
            accts ++ accounts_of l)).
Proof.
  induction l as [|[k p] l IH]; intros st accts Hnd Hnd' Hl.
  - rewrite !app_nil_r. destruct st. reflexivity.
  - destruct (Hl k p (or_introl eq_refl)) as [Hin [Hname Hok]].
    cbn [map fst ProvidersSequential]. unfold bind at 1, ForProvider.
    rewrite (lookup_in k p Providers Hnd Hin).
    unfold bind at 1, findAction.
    destruct (Provider.FindActiveAccount p) as [acct e] eqn:Hf.
    simpl in Hok. subst e. cbn.
    rewrite Hname.
    assert (Hfresh : ~ In k (map fst accts)).
    { intros Hk. simpl in Hnd'. apply NoDup_remove_2 in Hnd'.
      apply Hnd'. apply in_or_app. left. exact Hk. }
    rewrite (map_set_fresh _ _ _ Hfresh).
    fold findAction.
    rewrite (IH (mkState (cachedActiveAccount st) (providerCalls st ++ [k]))
                (accts ++ [(k, acct)]) Hnd).
    + simpl. rewrite <- !app_assoc. simpl. rewrite Hf. reflexivity.
    + rewrite map_app. simpl. rewrite <- app_assoc. exact Hnd'.
    + intros k' p' Hin'. apply Hl. right. exact Hin'.
Qed.

(** On a cache miss over a registry whose providers are named after their
    keys and all answer without error, [FindActiveAccount] calls each
    provider exactly once, in the order of the registry, whatever it
    returns. *)
Theorem FindActiveAccount_calls_each_once (Providers : registry) (st : State) :
  NoDup (map fst Providers) ->
  (forall k p, In (k, p) Providers ->
     Provider.Name p = k /\ snd (Provider.FindActiveAccount p) = None) ->
  cachedActiveAccount st = ""%string ->
  providerCalls (snd (FindActiveAccount Providers st))
  = providerCalls st ++ AllProviderNames Providers.
Proof.
  intros Hnd Hl Hc. unfold FindActiveAccount. rewrite Hc. simpl.
  unfold resolveActiveAccount, AllProviderNames.
  rewrite (ProvidersSequential_findAction_run Providers Providers st [] Hnd Hnd).
  - destruct (count_loop ([] ++ accounts_of Providers) [] "") as [counts last].
    destruct (List.length counts) as [|[|n]]; reflexivity.
  - intros k p Hin. destruct (Hl k p Hin). auto.
Qed.

(** On a cache miss, the first provider (in registry order) whose
    [FindActiveAccount] fails stops the resolution: the error is returned
    wrapped with ["in provider: <name>"], the cache stays empty, and the
    providers called are those up to and including the failing one. *)
Theorem FindActiveAccount_provider_error (Providers pre post : registry)
    (k : string) (p : Provider.t) (e : error) (st : State) :
  Providers = pre ++ (k, p) :: post ->
  NoDup (map fst Providers) ->
  (forall k' p', In (k', p') Providers -> Provider.Name p' = k') ->
  (forall k' p', In (k', p') pre -> snd (Provider.FindActiveAccount p') = None) ->
  snd (Provider.FindActiveAccount p) = Some e ->
  cachedActiveAccount st = ""%string ->
  FindActiveAccount Providers st
  = (("", Some (errors_Wrapf e ("in provider: " ++ k))),
     mkState "" (providerCalls st ++ map fst pre ++ [k])).
Proof.
  intros HP Hnd Hname Hpre Hp Hc. unfold FindActiveAccount. rewrite Hc. simpl.
  unfold resolveActiveAccount, AllProviderNames.
  assert (Hkeys : map fst Providers = map fst pre ++ k :: map fst post)
    by (rewrite HP, map_app; reflexivity).
  rewrite Hkeys, ProvidersSequential_app_run. unfold bind at 1.
  rewrite (ProvidersSequential_findAction_run Providers pre st [] Hnd).
  - cbn [ProvidersSequential]. unfold bind at 1, ForProvider.
    assert (Hin : In (k, p) Providers) by (rewrite HP; apply in_or_app; right; left; reflexivity).
    rewrite (lookup_in k p Providers Hnd Hin).
    unfold bind at 1, findAction.
    destruct (Provider.FindActiveAccount p) as [acct e'] eqn:Hf.
    simpl in Hp. subst e'. cbn. rewrite Hc, (Hname k p Hin), <- app_assoc. reflexivity.
  - simpl. rewrite Hkeys in Hnd. apply NoDup_app_remove_r in Hnd. exact Hnd.
  - intros k' p' Hin'.
    assert (Hin : In (k', p') Providers) by (rewrite HP; apply in_or_app; left; exact Hin').
    split; [exact Hin|]. split; [exact (Hname k' p' Hin) | exact (Hpre k' p' Hin')].
Qed.

End ResolverCalls.

(** ** Locality: zones not ending in a lower-case letter *)

Section RegionEnd.
Local Open Scope list_scope.

Lemma star_suffix (c : ascii -> bool) (s : list ascii) (k : list ascii -> answer) a :
  star c s k = Some a -> exists s1 s2, s = s1 ++ s2 /\ k s2 = Some a.
Proof.
  induction s as [|x s IH]; simpl; intros H.
  - exists [], []. auto.
  - destruct (c x).
    + destruct (star c s k) eqn:E.
      * destruct (IH H) as [s1 [s2 [-> Hk]]].
        exists (x :: s1), s2. auto.
      * exists [], (x :: s). auto.
    + exists [], (x :: s). auto.
Qed.

(** A successful match hands its continuation a suffix of the input. *)
Lemma matcher_suffix (r : regex) :
  forall s cap k a, matcher r s cap k = Some a ->
  exists s1 s2 cap', s = s1 ++ s2 /\ k s2 cap' = Some a.
Proof.
  induction r as [c|c|c|r1 IH1 r2 IH2|r IH|]; intros s cap k a H; simpl in H.
  - destruct s as [|x s]; [discriminate|]. destruct (c x); [|discriminate].
    exists [x], s, cap. auto.
  - destruct (star_suffix _ _ _ _ H) as [s1 [s2 [-> Hk]]]. exists s1, s2, cap. auto.
  - destruct s as [|x s]; [exists [], [], cap; auto|].
    destruct (c x); [|exists [], (x :: s), cap; auto].
    destruct (k s cap) eqn:E.
    + inversion H; subst. exists [x], s, cap. auto.
    + exists [], (x :: s), cap. auto.
  - destruct (IH1 _ _ _ _ H) as [s1 [s2 [cap' [-> H2]]]].
    destruct (IH2 _ _ _ _ H2) as [s3 [s4 [cap'' [-> Hk]]]].
    exists (s1 ++ s3), s4, cap''. rewrite app_assoc. auto.
  - destruct (IH _ _ _ _ H) as [s1 [s2 [cap' [-> Hk]]]].
    eexists s1, s2, _. split; [reflexivity | exact Hk].
  - destruct s as [|x s]; [|discriminate]. exists [], [], cap. auto.
Qed.

(** Whatever [regionRE] matches ends the input with a byte of [[a-z]]. *)
Lemma regionRE_match_end (s : list ascii) cap k a :
  matcher regionRE s cap k = Some a ->
  exists pre x, s = pre ++ [x] /\ cls_lower x = true.
Proof.
  intros H. unfold regionRE in H.
  change (matcher (RGroup (RCat (RStar cls_dot) (RClass cls_not_hyphen))) s cap
            (fun s' cap' => matcher (RCat (ROpt cls_hyphen) (RCat (RClass cls_lower) REnd))
                              s' cap' k) = Some a) in H.
  destruct (matcher_suffix _ _ _ _ _ H) as [s1 [s2 [cap1 [-> H2]]]].
  cbn beta in H2.
  change (matcher (ROpt cls_hyphen) s2 cap1
            (fun s' cap' => matcher (RCat (RClass cls_lower) REnd) s' cap' k) = Some a) in H2.
  destruct (matcher_suffix _ _ _ _ _ H2) as [s3 [s4 [cap2 [-> H4]]]].
  destruct s4 as [|x [|y s5]]; simpl in H4.
  - discriminate.
  - destruct (cls_lower x) eqn:Ex; [|discriminate].
    exists (s1 ++ s3), x. rewrite <- app_assoc. auto.
  - destruct (cls_lower x); discriminate.
Qed.

Lemma regionRE_submatch_end (s : list ascii) (m : list (list ascii)) :
  FindStringSubmatch regionRE s = Some m ->
  exists pre x, s = pre ++ [x] /\ cls_lower x = true.
Proof.
  induction s as [|y s IH]; intros H; rewrite FindStringSubmatch_unfold in H.
  - destruct (matcher regionRE [] None _) as [[s' cap]|] eqn:E; [|discriminate].
    exact (regionRE_match_end _ _ _ _ E).
  - destruct (matcher regionRE (y :: s) None _) as [[s' cap]|] eqn:E.
    + exact (regionRE_match_end _ _ _ _ E).
    + destruct (IH H) as [pre [x [-> Hx]]]. exists (y :: pre), x. auto.
Qed.

(** A VM outside the local zone whose zone is empty or does not end in a
    byte of [[a-z]] makes [Locality] reach [log.Fatalf]. *)
Theorem Locality_fatal_no_lower_end (Local : string) (vm : VM.t) :
  VM.Zone vm <> Local ->
  (forall pre x, list_ascii_of_string (VM.Zone vm) = pre ++ [x] -> cls_lower x = false) ->
  Locality Local vm = None.
Proof.
  intros Hl Hend. unfold Locality, IsLocal.
  destruct (String.eqb_spec (VM.Zone vm) Local) as [E|_]; [contradiction|].
  destruct (FindStringSubmatch regionRE (list_ascii_of_string (VM.Zone vm))) as [m|] eqn:E.
  - destruct (regionRE_submatch_end _ _ E) as [pre [x [Hs Hx]]].
    rewrite (Hend pre x Hs) in Hx. discriminate.
  - reflexivity.
Qed.

End RegionEnd.

(** ** Parallel dispatch over nothing *)

(** With nothing to dispatch, [FanOut] and [ProvidersParallel] start no
    goroutine, never invoke the action, and return nil. *)
Theorem Parallel_empty {S : Type} (Providers : registry) (iter : list nat)
    (sch : schedule) (action : Provider.t -> VM.List -> M S (option error))
    (action' : Provider.t -> M S (option error)) (s : S) :
  valid_schedule 0 sch ->
  FanOut Providers [] iter sch action s = (None, s)
  /\ ProvidersParallel Providers [] sch action' s = (None, s).
Proof.
  intros [Hp _]. simpl in Hp. apply Permutation_sym, Permutation_nil in Hp.
  destruct sch; [|discriminate]. split; reflexivity.
Qed.

(** ** Instances *)

Lemma ProvidersSequential_all_ok_witness :
  exists s', ProvidersSequential R_ABC ["A"; "C"] (logged fails_on_B) (tt, [])
             = (None, (s', [pA; pC])).
Proof.
  apply (ProvidersSequential_all_ok R_ABC ["A"; "C"] [pA; pC] fails_on_B).
  - repeat constructor.
  - intros p s Hp. destruct Hp as [<-|[<-|[]]]; reflexivity.
Defined.

Lemma ProvidersSequential_unknown_stops_witness :
  exists s', ProvidersSequential R_ABC ["A"; "D"; "B"] (logged fails_on_B) (tt, [])
             = (Some (Err "unknown vm provider: D"), (s', [pA])).
Proof.
  apply (ProvidersSequential_unknown_stops R_ABC ["A"] ["B"] "D" [pA] fails_on_B tt []).
  - repeat constructor.
  - intros p s Hp. destruct Hp as [<-|[]]; reflexivity.
  - reflexivity.
Defined.

Lemma FindActiveAccount_calls_each_once_witness :
  providerCalls (snd (FindActiveAccount R_split st0)) = ["aws"; "gcp"].
Proof.
  apply (FindActiveAccount_calls_each_once R_split st0).
  - repeat constructor; simpl; intuition discriminate.
  - intros k p Hin. simpl in Hin.
    destruct Hin as [E|[E|[]]]; inversion E; subst; split; reflexivity.
  - reflexivity.
Defined.

Lemma FindActiveAccount_provider_error_witness :
  FindActiveAccount R_AbadC st0
  = (("", Some (errors_Wrapf (Err "boom") "in provider: B")), mkState "" ["A"; "B"]).
Proof.
  apply (FindActiveAccount_provider_error R_AbadC [("A", pA)] [("C", pC)] "B" pBad
           (Err "boom") st0).
  - reflexivity.
  - repeat constructor; simpl; intuition discriminate.
  - intros k p Hin. simpl in Hin.
    destruct Hin as [E|[E|[E|[]]]]; inversion E; subst; reflexivity.
  - intros k p Hin. simpl in Hin. destruct Hin as [E|[]]. inversion E; subst. reflexivity.
  - reflexivity.
  - reflexivity.
Defined.

Lemma Locality_fatal_no_lower_end_witness :
  Locality "local" (vm_in "n" "gce" "us-east1-B") = None.
Proof.
  apply (Locality_fatal_no_lower_end "local" (vm_in "n" "gce" "us-east1-B")).
  - discriminate.
  - intros pre x H. apply (f_equal (@rev ascii)) in H.
    rewrite rev_app_distr in H. simpl in H. injection H as Hx _. subst x. reflexivity.
Defined.

Lemma Parallel_empty_witness :
  FanOut R_aws [] [] [] (fun _ _ n => (None, S n)) 0 = (None, 0)
  /\ ProvidersParallel R_aws [] [] fails_on_gcp 0 = (None, 0).
Proof.
  apply (Parallel_empty R_aws [] [] (fun _ _ n => (None, S n)) fails_on_gcp 0).
  split; constructor.
Defined.
